(** * ESP8266-Weather-EPaper: the credentials header [secrets.h]

    The repository fragment is one C/C++ header made of preprocessor lines
    only.  Its meaning is what the preprocessor does with it, so the
    development has three layers:

    - the text of the header, line by line ([secrets_h]);
    - a model of the preprocessor fragment the header is written in:
      preprocessing tokens, [//] comments, the directives [#ifdef],
      [#ifndef], [#else], [#endif], [#define], [#undef], text lines with
      object-like macro expansion, and inclusion of a file into a
      translation unit.  Everything outside that fragment is refused with an
      error, never silently accepted;
    - the properties of the header under that model. *)

From Stdlib Require Import Ascii String.
From stdpp Require Import base option strings list gmap fin_maps.

Local Open Scope string_scope.
Local Open Scope list_scope.

(** ** Characters *)

Definition dquote : ascii := "034"%char.
Definition squote : ascii := "039"%char.
Definition backslash : ascii := "092"%char.

Definition code_in (lo hi : nat) (c : ascii) : bool :=
  let n := nat_of_ascii c in Nat.leb lo n && Nat.leb n hi.

Definition is_digit (c : ascii) : bool := code_in 48 57 c.
Definition is_upper (c : ascii) : bool := code_in 65 90 c.
Definition is_lower (c : ascii) : bool := code_in 97 122 c.
Definition is_alpha (c : ascii) : bool := is_upper c || is_lower c.
Definition is_ident_start (c : ascii) : bool := is_alpha c || Ascii.eqb c "_".
Definition is_ident_char (c : ascii) : bool := is_ident_start c || is_digit c.
(** Blank, horizontal and vertical tab, form feed and carriage return. *)
Definition is_space (c : ascii) : bool :=
  Ascii.eqb c " " || code_in 9 9 c || code_in 11 13 c.
Definition is_quote (c : ascii) : bool := Ascii.eqb c dquote || Ascii.eqb c squote.

Definition snoc_char (s : string) (c : ascii) : string := s +:+ String c "".

(** ** Preprocessing tokens *)

Inductive token : Type :=
| TIdent (s : string)     (* identifier *)
| TNumber (s : string)    (* preprocessing number *)
| TString (s : string)    (* string literal, the text between its quotes *)
| TCharLit (s : string)   (* character constant, the text between its quotes *)
| TPunct (c : ascii)      (* any other single character *)
| TSpace                  (* a run of white space *)
| TBad (s : string).      (* a literal whose closing quote is missing *)

#[global] Instance token_eq_dec : EqDecision token.
Proof. solve_decision. Defined.

Definition render_token (t : token) : string :=
  match t with
  | TIdent s | TNumber s | TBad s => s
  | TString s => String dquote (snoc_char s dquote)
  | TCharLit s => String squote (snoc_char s squote)
  | TPunct c => String c ""
  | TSpace => " "
  end.

Definition render (ts : list token) : string :=
  foldr (fun t acc => render_token t +:+ acc) "" ts.

(** The lexer is a one-pass automaton over the characters of a line. *)
Inductive lex_state : Type :=
| LxStart
| LxSpace
| LxWord (number : bool) (acc : string)
| LxQuote (q : ascii) (acc : string) (escaped : bool).

(** The token a state stands for when the input ends or the token is over. *)
Definition flush (st : lex_state) : list token :=
  match st with
  | LxStart => []
  | LxSpace => [TSpace]
  | LxWord false acc => [TIdent acc]
  | LxWord true acc => [TNumber acc]
  | LxQuote q acc _ => [TBad (String q acc)]
  end.

Definition literal (q : ascii) (body : string) : token :=
  if Ascii.eqb q dquote then TString body else TCharLit body.

(** Does character [c] continue the token under construction? *)
Definition continues (st : lex_state) (c : ascii) : bool :=
  match st with
  | LxStart | LxQuote _ _ _ => false
  | LxSpace => is_space c
  | LxWord number _ => is_ident_char c || (number && Ascii.eqb c ".")
  end.

Definition extend (st : lex_state) (c : ascii) : lex_state :=
  match st with
  | LxWord number acc => LxWord number (snoc_char acc c)
  | _ => st
  end.

(** A fresh token starting with [c]. *)
Definition start (c : ascii) : list token * lex_state :=
  if is_space c then ([], LxSpace)
  else if is_ident_start c then ([], LxWord false (String c ""))
  else if is_digit c then ([], LxWord true (String c ""))
  else if is_quote c then ([], LxQuote c "" false)
  else ([TPunct c], LxStart).

Definition next (st : lex_state) (c : ascii) : list token * lex_state :=
  match st with
  | LxQuote q acc true => ([], LxQuote q (snoc_char acc c) false)
  | LxQuote q acc false =>
      if Ascii.eqb c backslash then ([], LxQuote q (snoc_char acc c) true)
      else if Ascii.eqb c q then ([literal q acc], LxStart)
      else ([], LxQuote q (snoc_char acc c) false)
  | _ =>
      if continues st c then ([], extend st c)
      else (flush st ++ (start c).1, (start c).2)
  end.

Fixpoint lex (st : lex_state) (s : string) : list token :=
  match s with
  | EmptyString => flush st
  | String c s' => (next st c).1 ++ lex (next st c).2 s'
  end.

Definition tokenize (s : string) : list token := lex LxStart s.

(** ** Comments and directives *)

Definition is_punct (c : ascii) (t : token) : bool :=
  match t with TPunct c' => Ascii.eqb c c' | _ => false end.

(** A [//] comment runs to the end of the line.  The lexer has already
    grouped literals, so a [//] inside a string is not seen here.  Block
    comments are outside the modelled fragment. *)
Fixpoint strip_comment (ts : list token) : option (list token) :=
  match ts with
  | [] => Some []
  | t :: ts' =>
      match ts' with
      | t' :: _ =>
          if is_punct "/" t && is_punct "/" t' then Some []
          else if is_punct "/" t && is_punct "*" t' then None
          else cons t <$> strip_comment ts'
      | [] => Some [t]
      end
  end.

Definition is_bad (t : token) : bool :=
  match t with TBad _ => true | _ => false end.

Fixpoint trim_left (ts : list token) : list token :=
  match ts with
  | TSpace :: ts' => trim_left ts'
  | _ => ts
  end.

Definition trim (ts : list token) : list token :=
  reverse (trim_left (reverse (trim_left ts))).

Inductive directive : Type :=
| DIfdef (name : string)
| DIfndef (name : string)
| DElse
| DEndif
| DDefine (name : string) (params : option (list string)) (body : list token)
| DUndef (name : string)
| DText (toks : list token)
| DBlank
| DUnsupported (why : string).

(** The parameter list of a function-like macro, after its opening
    parenthesis: identifiers separated by commas, up to the closing one. *)
Fixpoint parse_params (expect_name : bool) (ts : list token)
  : option (list string * list token) :=
  match ts with
  | TSpace :: r => parse_params expect_name r
  | TIdent x :: r =>
      if expect_name
      then (fun p => (x :: p.1, p.2)) <$> parse_params false r
      else None
  | TPunct c :: r =>
      if Ascii.eqb c ")" then (if expect_name then None else Some ([], r))
      else if Ascii.eqb c "," then (if expect_name then None else parse_params true r)
      else None
  | _ => None
  end.

Definition parse_param_list (ts : list token) : option (list string * list token) :=
  match trim_left ts with
  | TPunct c :: r => if Ascii.eqb c ")" then Some ([], r) else None
  | ts' => parse_params true ts'
  end.

Definition parse_define (ts : list token) : directive :=
  match ts with
  | TIdent name :: rest =>
      match rest with
      | TPunct c :: rest' =>
          if Ascii.eqb c "("
          then match parse_param_list rest' with
               | Some (ps, body) => DDefine name (Some ps) (trim_left body)
               | None => DUnsupported "macro parameter list"
               end
          else DUnsupported "no space after macro name"
      | _ => DDefine name None (trim_left rest)
      end
  | _ => DUnsupported "macro name missing"
  end.

Definition parse_name (mk : string -> directive) (ts : list token) : directive :=
  match ts with
  | [TIdent name] => mk name
  | _ => DUnsupported "one macro name expected"
  end.

Definition parse_bare (d : directive) (ts : list token) : directive :=
  match ts with
  | [] => d
  | _ => DUnsupported "extra tokens after directive"
  end.

(** [ts] is what follows the [#], already trimmed on both sides. *)
Definition parse_directive (ts : list token) : directive :=
  match ts with
  | [] => DBlank
  | TIdent kw :: rest =>
      let args := trim_left rest in
      if String.eqb kw "ifdef" then parse_name DIfdef args
      else if String.eqb kw "ifndef" then parse_name DIfndef args
      else if String.eqb kw "else" then parse_bare DElse args
      else if String.eqb kw "endif" then parse_bare DEndif args
      else if String.eqb kw "define" then parse_define args
      else if String.eqb kw "undef" then parse_name DUndef args
      else DUnsupported kw
  | _ => DUnsupported "directive name expected"
  end.

Definition ends_with_backslash (ts : list token) : bool :=
  match reverse ts with
  | t :: _ => is_punct backslash t
  | [] => false
  end.

Definition parse_line (s : string) : directive :=
  match strip_comment (tokenize s) with
  | None => DUnsupported "block comment"
  | Some ts =>
      if existsb is_bad ts then DUnsupported "unterminated literal"
      else if ends_with_backslash ts then DUnsupported "line continuation"
      else match trim ts with
           | [] => DBlank
           | t :: rest =>
               if is_punct "#" t then parse_directive (trim_left rest)
               else DText (t :: rest)
           end
  end.

(** ** The header, line by line *)

Definition quoted (s : string) : string := String dquote (snoc_char s dquote).

Definition secrets_h : list string :=
  [ "// ===== Файл с секретными данными (не синхронизируется с Git) =====";
    "// Скопируйте этот файл из secrets.h.example и заполните своими значениями";
    "";
    "#ifndef SECRETS_H";
    "#define SECRETS_H";
    "";
    "// SSID Wi-Fi сети";
    "#define SECRET_WIFI_SSID " +:+ quoted "YourWIFI";
    "";
    "// Пароль Wi-Fi сети";
    "#define SECRET_WIFI_PASSWORD " +:+ quoted "YourPassword";
    "";
    "// API-ключ для OpenWeatherMap";
    "#define SECRET_WEATHER_API_KEY " +:+ quoted "YourAPIKey";
    "";
    "// Город для запроса погоды (формат: " +:+ quoted "City,CountryCode"
      +:+ ", например " +:+ quoted "Moscow,ru" +:+ ")";
    "#define SECRET_WEATHER_CITY " +:+ quoted "Moscow,ru";
    "";
    "#endif" ].

Definition secrets_directives : list directive := map parse_line secrets_h.

(** ** Macro table and expansion *)

Record macro : Type := Macro {
  m_params : option (list string);   (* [None] for an object-like macro *)
  m_body : list token                (* the replacement list *)
}.

#[global] Instance macro_eq_dec : EqDecision macro.
Proof. solve_decision. Defined.

Definition next_is_lparen (ts : list token) : bool :=
  match trim_left ts with
  | t :: _ => is_punct "(" t
  | [] => false
  end.

(** Expansion of the object-like macros of a token list, with rescanning of
    each replacement list.  [hide] holds the macros being replaced, which are
    not replaced again inside their own expansion; [fuel] bounds the nesting.
    The invocation of a function-like macro is outside the modelled fragment
    and yields [None]. *)
Fixpoint expand (fuel : nat) (defs : gmap string macro) (hide : list string)
    (ts : list token) {struct fuel} : option (list token) :=
  match fuel with
  | 0 => None
  | S fuel' =>
      (fix go (ts : list token) : option (list token) :=
         match ts with
         | [] => Some []
         | TIdent x :: rest =>
             match (if bool_decide (x ∈ hide) then None else defs !! x) with
             | Some (Macro None body) =>
                 match expand fuel' defs (x :: hide) body, go rest with
                 | Some e, Some r => Some (e ++ r)
                 | _, _ => None
                 end
             | Some (Macro (Some _) _) =>
                 if next_is_lparen rest then None else cons (TIdent x) <$> go rest
             | None => cons (TIdent x) <$> go rest
             end
         | t :: rest => cons t <$> go rest
         end) ts
  end.

(** Each nested replacement hides one more macro of the table, so the size
    of the table bounds the nesting. *)
Definition expand_tokens (defs : gmap string macro) (ts : list token)
  : option (list token) :=
  expand (S (size defs)) defs [] ts.

(** What a consumer gets when it writes the identifier [name]. *)
Definition read_macro (defs : gmap string macro) (name : string)
  : option (list token) :=
  expand_tokens defs [TIdent name].

(** ** The preprocessor *)

Inductive pp_error : Type :=
| ERedefined (name : string)
| EElseWithoutIf
| EElseAfterElse
| EEndifWithoutIf
| EUnterminatedConditional
| EUnsupported (why : string).

Inductive result (A : Type) : Type :=
| Ok (a : A)
| Err (e : pp_error).
Arguments Ok {A} a.
Arguments Err {A} e.

Definition bind {A B : Type} (r : result A) (k : A -> result B) : result B :=
  match r with
  | Ok a => k a
  | Err e => Err e
  end.

(** One open conditional: is its current group selected, and has its
    [#else] been seen. *)
Record cond : Type := Cond { c_taken : bool; c_in_else : bool }.

(** The state of a translation unit: the macros defined so far and the
    lines of program text passed on to the compiler. *)
Record pp_state : Type := PP {
  defs : gmap string macro;
  out : list (list token)
}.

Definition pp_init : pp_state := PP ∅ [].

Definition live (cs : list cond) : bool := forallb c_taken cs.

Definition is_defined (name : string) (st : pp_state) : bool :=
  match defs st !! name with
  | Some _ => true
  | None => false
  end.

(** [#define]: a macro may be defined again only with the same parameters
    and the same replacement list.  This is the rule of the C standard, which
    makes any other redefinition an error; a preprocessor that only warns
    and goes on with the new definition is modelled by [run_warn] below. *)
Definition define (name : string) (m : macro) (st : pp_state) : result pp_state :=
  match defs st !! name with
  | None => Ok (PP (<[name := m]> (defs st)) (out st))
  | Some old => if decide (old = m) then Ok st else Err (ERedefined name)
  end.

Definition undef (name : string) (st : pp_state) : pp_state :=
  PP (delete name (defs st)) (out st).

Definition emit (ts : list token) (st : pp_state) : result pp_state :=
  match expand_tokens (defs st) ts with
  | Some ts' => Ok (PP (defs st) (out st ++ [ts']))
  | None => Err (EUnsupported "macro invocation")
  end.

(** One line.  Conditionals nest whether or not their group is selected;
    the other directives act only in a selected group.  A line outside the
    modelled fragment stops the run wherever it stands. *)
Definition step (d : directive) (cs : list cond) (st : pp_state)
  : result (list cond * pp_state) :=
  match d with
  | DUnsupported why => Err (EUnsupported why)
  | DBlank => Ok (cs, st)
  | DIfdef name => Ok (Cond (is_defined name st) false :: cs, st)
  | DIfndef name => Ok (Cond (negb (is_defined name st)) false :: cs, st)
  | DElse =>
      match cs with
      | [] => Err EElseWithoutIf
      | Cond taken in_else :: cs' =>
          if in_else then Err EElseAfterElse
          else Ok (Cond (negb taken) true :: cs', st)
      end
  | DEndif =>
      match cs with
      | [] => Err EEndifWithoutIf
      | _ :: cs' => Ok (cs', st)
      end
  | DDefine name params body =>
      if live cs
      then bind (define name (Macro params body) st) (fun st' => Ok (cs, st'))
      else Ok (cs, st)
  | DUndef name => Ok (cs, if live cs then undef name st else st)
  | DText ts =>
      if live cs then bind (emit ts st) (fun st' => Ok (cs, st')) else Ok (cs, st)
  end.

(** A file is processed line by line; its conditionals must be closed when
    it ends. *)
Fixpoint run (ds : list directive) (cs : list cond) (st : pp_state)
  : result pp_state :=
  match ds with
  | [] =>
      match cs with
      | [] => Ok st
      | _ :: _ => Err EUnterminatedConditional
      end
  | d :: ds' => bind (step d cs st) (fun p => run ds' p.1 p.2)
  end.

(** The states reached after each line, up to the first error. *)
Fixpoint trace (ds : list directive) (cs : list cond) (st : pp_state)
  : list pp_state :=
  match ds with
  | [] => []
  | d :: ds' =>
      match step d cs st with
      | Ok p => p.2 :: trace ds' p.1 p.2
      | Err _ => []
      end
  end.

(** [#include] of a file at a point where the translation unit is in state
    [st]. *)
Definition include (file : list string) (st : pp_state) : result pp_state :=
  run (map parse_line file) [] st.

Fixpoint include_times (n : nat) (file : list string) (st : pp_state)
  : result pp_state :=
  match n with
  | 0 => Ok st
  | S n' => bind (include file st) (include_times n' file)
  end.

Fixpoint trace_times (n : nat) (file : list string) (st : pp_state)
  : list pp_state :=
  match n with
  | 0 => []
  | S n' =>
      trace (map parse_line file) [] st ++
      match include file st with
      | Ok st' => trace_times n' file st'
      | Err _ => []
      end
  end.

(** ** The preprocessor that warns on redefinition *)

(** Does [#define name m] clash with a definition the unit already has? *)
Definition redefines (name : string) (m : macro) (st : pp_state) : bool :=
  match defs st !! name with
  | Some old => negb (bool_decide (old = m))
  | None => false
  end.

Definition replace_macro (name : string) (m : macro) (st : pp_state) : pp_state :=
  PP (<[name := m]> (defs st)) (out st).

(** The run of a preprocessor that diagnoses an incompatible redefinition
    with a warning, lets the new definition replace the old one and goes
    on, as gcc does by default.  Every other line is processed by [step];
    the result carries the names warned about, in order. *)
Fixpoint run_warn (ds : list directive) (cs : list cond) (st : pp_state)
    (ws : list string) : result (pp_state * list string) :=
  match ds with
  | [] =>
      match cs with
      | [] => Ok (st, ws)
      | _ :: _ => Err EUnterminatedConditional
      end
  | d :: ds' =>
      match d, step d cs st with
      | DDefine name params body, Err (ERedefined _) =>
          run_warn ds' cs (replace_macro name (Macro params body) st) (ws ++ [name])
      | _, Ok p => run_warn ds' p.1 p.2 ws
      | _, Err e => Err e
      end
  end.

Definition include_warn (file : list string) (st : pp_state)
  : result (pp_state * list string) :=
  run_warn (map parse_line file) [] st [].

(** ** What the header defines *)

(** The four credential macros the consumers read. *)
Definition secret_names : list string :=
  [ "SECRET_WIFI_SSID"; "SECRET_WIFI_PASSWORD";
    "SECRET_WEATHER_API_KEY"; "SECRET_WEATHER_CITY" ].

(** The [#define] lines of a file, in order. *)
Definition defines_of (ds : list directive) : list (string * macro) :=
  omap (fun d => match d with
                 | DDefine name params body => Some (name, Macro params body)
                 | _ => None
                 end) ds.

Definition defines_name (name : string) (d : directive) : bool :=
  match d with
  | DDefine n _ _ => String.eqb n name
  | _ => false
  end.

Definition undefs_name (name : string) (d : directive) : bool :=
  match d with
  | DUndef n => String.eqb n name
  | _ => false
  end.

Definition count_where (p : directive -> bool) (ds : list directive) : nat :=
  length (List.filter p ds).

(** A line that only declares: blank or comment, the include guard's
    [#ifndef] and [#endif], or the definition of an object-like macro.  No
    program text, no function-like macro, nothing the model refuses. *)
Definition declarative (d : directive) : bool :=
  match d with
  | DBlank | DIfndef _ | DEndif | DDefine _ None _ => true
  | _ => false
  end.

(** The state of a translation unit that has included the header and nothing
    else. *)
Definition secrets_state : pp_state :=
  PP (list_to_map (defines_of secrets_directives)) [].

(** The string a macro body stands for, when it is one string literal. *)
Definition string_value (ts : list token) : option string :=
  match ts with
  | [TString s] => Some s
  | _ => None
  end.

Definition read_string (defs : gmap string macro) (name : string) : option string :=
  read_macro defs name ≫= string_value.

Definition is_ident (name : string) (t : token) : bool :=
  match t with
  | TIdent x => String.eqb x name
  | _ => false
  end.

Definition mentions (name : string) (ts : list token) : bool :=
  existsb (is_ident name) ts.

(** ** The record view of the header *)

(** Follows the spec's data model: four static string values. *)
Record secrets : Type := Secrets {
  wifi_ssid : string;
  wifi_password : string;
  weather_api_key : string;
  weather_city : string
}.

(** Abstraction: the record a macro table holds, if its four credential
    macros read as string literals. *)
Definition read_secrets (st : pp_state) : option secrets :=
  ssid ← read_string (defs st) "SECRET_WIFI_SSID";
  password ← read_string (defs st) "SECRET_WIFI_PASSWORD";
  key ← read_string (defs st) "SECRET_WEATHER_API_KEY";
  city ← read_string (defs st) "SECRET_WEATHER_CITY";
  Some (Secrets ssid password key city).

(** Concretisation: the macro table of a record. *)
Definition to_macros (r : secrets) : gmap string macro :=
  <["SECRET_WIFI_SSID" := Macro None [TString (wifi_ssid r)]]>
  (<["SECRET_WIFI_PASSWORD" := Macro None [TString (wifi_password r)]]>
  (<["SECRET_WEATHER_API_KEY" := Macro None [TString (weather_api_key r)]]>
  (<["SECRET_WEATHER_CITY" := Macro None [TString (weather_city r)]]> ∅))).

(** ** The city query *)

Fixpoint count_char (c : ascii) (s : string) : nat :=
  match s with
  | EmptyString => 0
  | String c' s' => (if Ascii.eqb c c' then 1 else 0) + count_char c s'
  end.

(** The text before and after the first occurrence of [sep]. *)
Fixpoint split_first (sep : ascii) (s : string) : option (string * string) :=
  match s with
  | EmptyString => None
  | String c s' =>
      if Ascii.eqb c sep then Some (EmptyString, s')
      else (fun p => (String c p.1, p.2)) <$> split_first sep s'
  end.

Fixpoint split_on (sep : ascii) (s : string) : list string :=
  match s with
  | EmptyString => [EmptyString]
  | String c s' =>
      if Ascii.eqb c sep then EmptyString :: split_on sep s'
      else match split_on sep s' with
           | w :: ws => String c w :: ws
           | [] => [String c EmptyString]
           end
  end.

Fixpoint string_forallb (p : ascii -> bool) (s : string) : bool :=
  match s with
  | EmptyString => true
  | String c s' => p c && string_forallb p s'
  end.

Definition to_upper (c : ascii) : ascii :=
  if is_lower c then ascii_of_nat (nat_of_ascii c - 32) else c.

Fixpoint upper_string (s : string) : string :=
  match s with
  | EmptyString => EmptyString
  | String c s' => String (to_upper c) (upper_string s')
  end.

(** The officially assigned ISO 3166-1 alpha-2 country codes. *)
Definition iso3166_alpha2 : list string :=
  split_on " "
    ("AD AE AF AG AI AL AM AO AQ AR AS AT AU AW AX AZ " +:+
     "BA BB BD BE BF BG BH BI BJ BL BM BN BO BQ BR BS BT BV BW BY BZ " +:+
     "CA CC CD CF CG CH CI CK CL CM CN CO CR CU CV CW CX CY CZ " +:+
     "DE DJ DK DM DO DZ EC EE EG EH ER ES ET FI FJ FK FM FO FR " +:+
     "GA GB GD GE GF GG GH GI GL GM GN GP GQ GR GS GT GU GW GY " +:+
     "HK HM HN HR HT HU ID IE IL IM IN IO IQ IR IS IT JE JM JO JP " +:+
     "KE KG KH KI KM KN KP KR KW KY KZ LA LB LC LI LK LR LS LT LU LV LY " +:+
     "MA MC MD ME MF MG MH MK ML MM MN MO MP MQ MR MS MT MU MV MW MX MY MZ " +:+
     "NA NC NE NF NG NI NL NO NP NR NU NZ OM " +:+
     "PA PE PF PG PH PK PL PM PN PR PS PT PW PY QA RE RO RS RU RW " +:+
     "SA SB SC SD SE SG SH SI SJ SK SL SM SN SO SR SS ST SV SX SY SZ " +:+
     "TC TD TF TG TH TJ TK TL TM TN TO TR TT TV TW TZ " +:+
     "UA UG UM US UY UZ VA VC VE VG VI VN VU WF WS YE YT ZA ZM ZW").

(** A country code as the weather service's [City,cc] query takes it: two
    letters that name an ISO 3166-1 alpha-2 code, in either case. *)
Definition is_country_code (s : string) : bool :=
  Nat.eqb (String.length s) 2 && string_forallb is_alpha s
  && bool_decide (upper_string s ∈ iso3166_alpha2).

(** ** Auxiliary notions for the proofs *)

(** A line that leaves the conditional stack alone and does nothing in a
    group that is skipped. *)
Definition inert (d : directive) : bool :=
  match d with
  | DBlank | DDefine _ _ _ | DUndef _ | DText _ => true
  | _ => false
  end.

Definition is_identifier (t : token) : bool :=
  match t with
  | TIdent _ => true
  | _ => false
  end.

Definition ident_free (ts : list token) : bool :=
  forallb (fun t => negb (is_identifier t)) ts.

(** A table of object-like macros whose replacement lists name no other
    macro: expansion is then a one-level substitution. *)
Definition plain (defs : gmap string macro) : Prop :=
  map_Forall (fun _ m => m_params m = None /\ ident_free (m_body m) = true) defs.

Definition subst (defs : gmap string macro) (t : token) : list token :=
  match t with
  | TIdent x =>
      match defs !! x with
      | Some m => m_body m
      | None => [t]
      end
  | _ => [t]
  end.

(** How many times the definition of [name] changes along a run that starts
    in state [prev] and goes through the states [tr]. *)
Fixpoint definition_changes (name : string) (prev : pp_state)
    (tr : list pp_state) : nat :=
  match tr with
  | [] => 0
  | st :: tr' =>
      (if decide (defs st !! name = defs prev !! name) then 0 else 1)
      + definition_changes name st tr'
  end.

(** ** Sample translation units *)

(** A unit that has defined macros of its own, two of them named like the
    words inside the header's string literals, and has passed a line of
    program text on. *)
Definition busy_unit : pp_state :=
  PP (<["Moscow" := Macro None [TIdent "Paris"]]>
      (<["YourWIFI" := Macro None [TNumber "0"]]> ∅))
     [tokenize "int x;"].

(** The same unit after it has included the header. *)
Definition busy_included : pp_state :=
  PP (defs secrets_state ∪ defs busy_unit) (out busy_unit).

(** Lines a unit may hold after the inclusion, and the unit after them. *)
Definition later_lines : list string :=
  [ "#define DEBUG 1"; "int level = DEBUG;"; "#undef DEBUG" ].

Definition later_unit : pp_state :=
  PP (defs secrets_state) [tokenize "int level = 1;"].

(** A unit that has already defined one of the credential macros with a
    value of its own, as a build flag would. *)
Definition conflict_unit : pp_state :=
  PP (<["SECRET_WIFI_SSID" := Macro None [TString "home"]]> ∅) [].

(** * Properties *)

#[local] Arguments define : simpl never.
#[local] Arguments is_defined : simpl never.

(** ** The lexer and the line parser on sample lines *)

Example tokenize_call :
  tokenize "WiFi.begin(SECRET_WIFI_SSID, 0x1F);" =
  [ TIdent "WiFi"; TPunct "."; TIdent "begin"; TPunct "(";
    TIdent "SECRET_WIFI_SSID"; TPunct ","; TSpace; TNumber "0x1F";
    TPunct ")"; TPunct ";" ].
Proof. reflexivity. Qed.

(** A [//] inside a string literal does not start a comment. *)
Example parse_define_url :
  parse_line ("#define URL " +:+ quoted "http://host/q" +:+ "  // server") =
  DDefine "URL" None [TString "http://host/q"].
Proof. reflexivity. Qed.

Example parse_define_function_like :
  parse_line "#  define MAX(a, b) ((a) > (b) ? (a) : (b))" =
  DDefine "MAX" (Some ["a"; "b"]) (tokenize "((a) > (b) ? (a) : (b))").
Proof. reflexivity. Qed.

Example parse_text_line :
  parse_line "  int x = 1;  " = DText (tokenize "int x = 1;").
Proof. reflexivity. Qed.

Example parse_if_unsupported :
  parse_line "#if defined(ESP8266)" = DUnsupported "if".
Proof. reflexivity. Qed.

(** Redefinition with another body is an error; with the same body it is
    not. *)
Example run_redefinition :
  run (map parse_line ["#define N 1"; "#define N 2"]) [] pp_init
    = Err (ERedefined "N") /\
  is_Some (match run (map parse_line ["#define N 1"; "#define N  1"]) [] pp_init with
           | Ok st => Some st
           | Err _ => None
           end).
Proof. split; [reflexivity|]. vm_compute. by eexists. Qed.

(** Nested replacement: a macro is not replaced inside its own expansion. *)
Example run_rescan :
  out <$> (match run (map parse_line
                        [ "#define A B + 1"; "#define B A"; "f(A);" ]) [] pp_init with
           | Ok st => Some st
           | Err _ => None
           end)
  = Some [tokenize "f(A + 1);"].
Proof. vm_compute. reflexivity. Qed.

(** ** The parsed header *)

Lemma secrets_directives_eq :
  secrets_directives =
  [ DBlank; DBlank; DBlank;
    DIfndef "SECRETS_H";
    DDefine "SECRETS_H" None [];
    DBlank; DBlank;
    DDefine "SECRET_WIFI_SSID" None [TString "YourWIFI"];
    DBlank; DBlank;
    DDefine "SECRET_WIFI_PASSWORD" None [TString "YourPassword"];
    DBlank; DBlank;
    DDefine "SECRET_WEATHER_API_KEY" None [TString "YourAPIKey"];
    DBlank; DBlank;
    DDefine "SECRET_WEATHER_CITY" None [TString "Moscow,ru"];
    DBlank;
    DEndif ].
Proof. vm_compute. reflexivity. Qed.

Lemma include_secrets_init : include secrets_h pp_init = Ok secrets_state.
Proof. vm_compute. reflexivity. Qed.

Lemma secrets_state_names :
  (defines_of secrets_directives).*1 = "SECRETS_H" :: secret_names.
Proof. vm_compute. reflexivity. Qed.

Lemma secrets_state_defined (name : string) :
  is_Some (defs secrets_state !! name) <-> name ∈ "SECRETS_H" :: secret_names.
Proof.
  rewrite <- secrets_state_names, <- elem_of_dom.
  unfold secrets_state; cbn [defs].
  rewrite dom_list_to_map_L. apply elem_of_list_to_set.
Qed.

(** ** [#define] and [is_defined] *)

Lemma is_defined_true name st :
  is_defined name st = true <-> is_Some (defs st !! name).
Proof.
  unfold is_defined. destruct (defs st !! name); split; intros H;
    try done; by destruct H.
Qed.

Lemma is_defined_false name st :
  is_defined name st = false <-> defs st !! name = None.
Proof. unfold is_defined. by destruct (defs st !! name). Qed.

(** A successful [#define] leaves the macro defined as written and changes
    no other definition. *)
Lemma define_ok name m st st' :
  define name m st = Ok st' ->
  defs st' !! name = Some m /\ defs st ⊆ defs st' /\ out st' = out st.
Proof.
  unfold define. destruct (defs st !! name) as [old|] eqn:E.
  - destruct (decide (old = m)) as [->|]; [|done].
    intros [= <-]. done.
  - intros [= <-]. cbn. split; [apply lookup_insert_eq|].
    split; [by apply insert_subseteq|done].
Qed.

Lemma define_defined name m k st st' :
  define name m st = Ok st' -> is_defined k st = true -> is_defined k st' = true.
Proof.
  intros (_ & Hsub & _)%define_ok [v Hv]%is_defined_true.
  apply is_defined_true. exists v. by eapply lookup_weaken.
Qed.

(** ** Skipped groups and the include-guard idiom *)

Lemma step_dead d cs st :
  live cs = false -> inert d = true -> step d cs st = Ok (cs, st).
Proof. intros Hcs Hd. destruct d; try done; cbn; by rewrite Hcs. Qed.

Lemma run_dead body rest cs st :
  live cs = false -> forallb inert body = true ->
  run (body ++ rest) cs st = run rest cs st.
Proof.
  intros Hcs. induction body as [|d body IH]; [done|].
  cbn [forallb]. intros [Hd Hbody]%andb_prop.
  cbn [app run]. rewrite step_dead by done. cbn. by apply IH.
Qed.

Lemma run_blank ds cs st : run (DBlank :: ds) cs st = run ds cs st.
Proof. reflexivity. Qed.

(** A file wrapped as [#ifndef G] ... [#endif] does nothing once [G] is
    defined. *)
Lemma run_guarded guard body st :
  is_defined guard st = true -> forallb inert body = true ->
  run (DIfndef guard :: body ++ [DEndif]) [] st = Ok st.
Proof.
  intros Hg Hbody. cbn [run step bind fst snd]. rewrite Hg. cbn [negb].
  by rewrite run_dead.
Qed.

Lemma include_guarded st :
  is_defined "SECRETS_H" st = true -> include secrets_h st = Ok st.
Proof.
  intros Hg. unfold include.
  change (map parse_line secrets_h) with secrets_directives.
  rewrite secrets_directives_eq, !run_blank.
  match goal with
  | |- run (_ :: ?ds) _ _ = _ =>
      by apply (run_guarded "SECRETS_H" (removelast ds))
  end.
Qed.

(** The first inclusion runs the five [#define] lines in order. *)
Lemma include_unguarded st :
  is_defined "SECRETS_H" st = false ->
  include secrets_h st =
  bind (define "SECRETS_H" (Macro None []) st) (fun s1 =>
  bind (define "SECRET_WIFI_SSID" (Macro None [TString "YourWIFI"]) s1) (fun s2 =>
  bind (define "SECRET_WIFI_PASSWORD" (Macro None [TString "YourPassword"]) s2) (fun s3 =>
  bind (define "SECRET_WEATHER_API_KEY" (Macro None [TString "YourAPIKey"]) s3) (fun s4 =>
  define "SECRET_WEATHER_CITY" (Macro None [TString "Moscow,ru"]) s4)))).
Proof.
  intros Hg. unfold include.
  change (map parse_line secrets_h) with secrets_directives.
  rewrite secrets_directives_eq, !run_blank.
  cbn [run step bind fst snd]. rewrite Hg.
  cbn [negb live forallb c_taken andb].
  repeat match goal with
         | |- context [define ?n ?m ?s] =>
             destruct (define n m s); cbn [bind fst snd live forallb c_taken andb]; [|reflexivity]
         end.
  reflexivity.
Qed.

Lemma secrets_state_lookups :
  defs secrets_state !! "SECRETS_H" = Some (Macro None []) /\
  defs secrets_state !! "SECRET_WIFI_SSID" = Some (Macro None [TString "YourWIFI"]) /\
  defs secrets_state !! "SECRET_WIFI_PASSWORD" = Some (Macro None [TString "YourPassword"]) /\
  defs secrets_state !! "SECRET_WEATHER_API_KEY" = Some (Macro None [TString "YourAPIKey"]) /\
  defs secrets_state !! "SECRET_WEATHER_CITY" = Some (Macro None [TString "Moscow,ru"]).
Proof. vm_compute. done. Qed.

(** Whatever the translation unit held before, a successful first inclusion
    leaves the five macros defined as the header writes them. *)
Lemma include_unguarded_lookups st st' :
  is_defined "SECRETS_H" st = false ->
  include secrets_h st = Ok st' ->
  Forall (fun name => defs st' !! name = defs secrets_state !! name)
         ("SECRETS_H" :: secret_names).
Proof.
  intros Hg H. rewrite include_unguarded in H by done.
  destruct (define "SECRETS_H" _ st) as [s1|] eqn:E1; [|done].
  cbn [bind] in H.
  destruct (define "SECRET_WIFI_SSID" _ s1) as [s2|] eqn:E2; [|done].
  cbn [bind] in H.
  destruct (define "SECRET_WIFI_PASSWORD" _ s2) as [s3|] eqn:E3; [|done].
  cbn [bind] in H.
  destruct (define "SECRET_WEATHER_API_KEY" _ s3) as [s4|] eqn:E4; [|done].
  cbn [bind] in H.
  apply define_ok in E1 as (L1 & S1 & _), E2 as (L2 & S2 & _),
    E3 as (L3 & S3 & _), E4 as (L4 & S4 & _), H as (L5 & S5 & _).
  destruct secrets_state_lookups as (R1 & R2 & R3 & R4 & R5).
  assert (S45 : defs s4 ⊆ defs st') by done.
  assert (S35 : defs s3 ⊆ defs st') by (by etrans).
  assert (S25 : defs s2 ⊆ defs st') by (by etrans).
  assert (S15 : defs s1 ⊆ defs st') by (by etrans).
  unfold secret_names. repeat apply Forall_cons_2; [..|apply Forall_nil_2].
  - rewrite R1. exact (lookup_weaken _ _ _ _ L1 S15).
  - rewrite R2. exact (lookup_weaken _ _ _ _ L2 S25).
  - rewrite R3. exact (lookup_weaken _ _ _ _ L3 S35).
  - rewrite R4. exact (lookup_weaken _ _ _ _ L4 S45).
  - rewrite R5. exact L5.
Qed.

Lemma include_defines_guard st st' :
  include secrets_h st = Ok st' -> is_defined "SECRETS_H" st' = true.
Proof.
  intros H. destruct (is_defined "SECRETS_H" st) eqn:Hg.
  - rewrite include_guarded in H by done. by injection H as <-.
  - apply include_unguarded_lookups in H; [|done].
    apply Forall_cons_1 in H as [H _]. apply is_defined_true.
    rewrite H. by destruct secrets_state_lookups as [-> _].
Qed.

(** ** Claims *)

(** C1, as stated, fails: the table of a translation unit that included the
    header does not hold exactly the four credential macros, because the
    include-guard symbol [SECRETS_H] is defined as well. *)
Lemma secrets_exactly_four_fails :
  ~ (exists st, include secrets_h pp_init = Ok st /\
       forall name, is_Some (defs st !! name) <-> name ∈ secret_names).
Proof.
  intros (st & H & Hall). rewrite include_secrets_init in H.
  injection H as <-.
  assert (Hin : "SECRETS_H" ∈ secret_names).
  { apply Hall. destruct secrets_state_lookups as [-> _]. by eexists. }
  revert Hin. apply (bool_decide_eq_false_1 _). vm_compute. reflexivity.
Qed.

(** C1 (amended): including the header into an empty translation unit
    defines exactly five macros: the four credential macros, each an
    object-like macro whose replacement list is one string literal, and the
    include-guard symbol [SECRETS_H], object-like with an empty replacement
    list. *)
Theorem secrets_defines_five :
  exists st, include secrets_h pp_init = Ok st /\
    (forall name, is_Some (defs st !! name) <-> name ∈ "SECRETS_H" :: secret_names) /\
    Forall (fun name => exists s, defs st !! name = Some (Macro None [TString s]))
           secret_names /\
    defs st !! "SECRETS_H" = Some (Macro None []).
Proof.
  exists secrets_state. split; [apply include_secrets_init|].
  split; [apply secrets_state_defined|].
  destruct secrets_state_lookups as (R1 & R2 & R3 & R4 & R5).
  split; [|done].
  unfold secret_names. repeat apply Forall_cons_2; [..|apply Forall_nil_2];
    eauto.
Qed.

(** C2: inclusion of the header is idempotent.  In any translation unit,
    once one inclusion has succeeded every further inclusion succeeds too
    and changes nothing: including the header [S n] times gives the state
    that including it once gives, with no redefinition error. *)
Theorem secrets_include_idempotent st st' n :
  include secrets_h st = Ok st' ->
  include_times (S n) secrets_h st = Ok st'.
Proof.
  intros H. cbn [include_times]. rewrite H. cbn [bind].
  assert (Hfix : include secrets_h st' = Ok st')
    by (eapply include_guarded, include_defines_guard, H).
  clear H. induction n as [|n IH]; [done|].
  cbn [include_times]. by rewrite Hfix.
Qed.

Lemma secrets_include_idempotent_witness :
  include secrets_h pp_init = Ok secrets_state /\
  include_times 3 secrets_h pp_init = Ok secrets_state.
Proof.
  split; [apply include_secrets_init|].
  apply (secrets_include_idempotent pp_init secrets_state 2).
  vm_compute. reflexivity.
Defined.

(** C7: besides the four credential macros the header defines its
    include-guard symbol.  In any translation unit where [SECRETS_H] is not
    yet defined, a successful inclusion defines [SECRETS_H] (object-like,
    empty replacement list) together with the four credential macros.  And a
    consumer that has used the name [SECRETS_H] for a macro of its own
    disables the header: the inclusion then leaves the state as it was, so
    it defines no credential macro. *)
Theorem secrets_guard_symbol st st' :
  include secrets_h st = Ok st' ->
  (is_defined "SECRETS_H" st = false ->
     defs st' !! "SECRETS_H" = Some (Macro None []) /\
     Forall (fun name => defs st' !! name = defs secrets_state !! name /\
                         is_defined name st' = true) secret_names) /\
  (is_defined "SECRETS_H" st = true -> st' = st).
Proof.
  intros H. split; intros Hg.
  - pose proof (include_unguarded_lookups _ _ Hg H) as HF.
    apply Forall_cons_1 in HF as [Hguard HF].
    destruct secrets_state_lookups as (R1 & R2 & R3 & R4 & R5).
    split; [by rewrite Hguard|].
    rewrite Forall_forall in HF. apply Forall_forall. intros name Hin.
    split; [exact (HF name Hin)|].
    apply is_defined_true. rewrite (HF name Hin).
    apply secrets_state_defined. by right.
  - rewrite include_guarded in H by done. by injection H as <-.
Qed.

Lemma secrets_guard_symbol_witness :
  (defs secrets_state !! "SECRETS_H" = Some (Macro None []) /\
   Forall (fun name => defs secrets_state !! name = defs secrets_state !! name /\
                       is_defined name secrets_state = true) secret_names) /\
  secrets_state = secrets_state.
Proof.
  split.
  - apply (secrets_guard_symbol pp_init secrets_state include_secrets_init).
    vm_compute. reflexivity.
  - apply (secrets_guard_symbol secrets_state secrets_state).
    + vm_compute. reflexivity.
    + vm_compute. reflexivity.
Defined.

(** C4: each of the four credential macros reads as one string literal, and
    none of the four strings is empty (the SSID in particular, and the
    password too in the header as shipped). *)
Theorem secrets_nonempty_literals :
  exists st, include secrets_h pp_init = Ok st /\
    Forall (fun name => exists s,
              read_macro (defs st) name = Some [TString s] /\ s <> EmptyString)
           secret_names.
Proof.
  exists secrets_state. split; [apply include_secrets_init|].
  unfold secret_names. repeat apply Forall_cons_2; [..|apply Forall_nil_2];
    (eexists; split; [vm_compute; reflexivity|discriminate]).
Qed.

(** C9: the shipped values are the placeholders: a consumer that reads the
    four macros gets the string literals "YourWIFI", "YourPassword",
    "YourAPIKey" and "Moscow,ru". *)
Theorem secrets_placeholder_values :
  exists st, include secrets_h pp_init = Ok st /\
    read_string (defs st) "SECRET_WIFI_SSID" = Some "YourWIFI" /\
    read_string (defs st) "SECRET_WIFI_PASSWORD" = Some "YourPassword" /\
    read_string (defs st) "SECRET_WEATHER_API_KEY" = Some "YourAPIKey" /\
    read_string (defs st) "SECRET_WEATHER_CITY" = Some "Moscow,ru" /\
    render <$> read_macro (defs st) "SECRET_WIFI_SSID" = Some (quoted "YourWIFI") /\
    render <$> read_macro (defs st) "SECRET_WIFI_PASSWORD" = Some (quoted "YourPassword") /\
    render <$> read_macro (defs st) "SECRET_WEATHER_API_KEY" = Some (quoted "YourAPIKey") /\
    render <$> read_macro (defs st) "SECRET_WEATHER_CITY" = Some (quoted "Moscow,ru").
Proof.
  exists secrets_state. split; [apply include_secrets_init|].
  vm_compute. done.
Qed.

(** ** Splitting at a separator *)

Lemma count_char_app c a b :
  count_char c (a +:+ b) = count_char c a + count_char c b.
Proof.
  induction a as [|c' a IH]; [done|].
  change (String c' a +:+ b) with (String c' (a +:+ b)).
  cbn [count_char]. rewrite IH. lia.
Qed.

Lemma split_first_app sep a b :
  count_char sep a = 0 ->
  split_first sep (a +:+ String sep b) = Some (a, b).
Proof.
  induction a as [|c a IH].
  - intros _. change (split_first sep (String sep b) = Some (EmptyString, b)).
    cbn [split_first]. by rewrite Ascii.eqb_refl.
  - change (String c a +:+ String sep b) with (String c (a +:+ String sep b)).
    cbn [count_char split_first]. rewrite (Ascii.eqb_sym c sep).
    destruct (Ascii.eqb sep c); [done|].
    intros H. by rewrite IH.
Qed.

(** With exactly one separator in it, a string splits in one way only. *)
Lemma split_unique sep v a b :
  count_char sep v = 1 ->
  v = a +:+ String sep b ->
  split_first sep v = Some (a, b).
Proof.
  intros Hone ->. apply split_first_app.
  rewrite count_char_app in Hone. cbn [count_char] in Hone.
  rewrite Ascii.eqb_refl in Hone. lia.
Qed.

(** C8: the city query "Moscow,ru" holds exactly one comma; splitting at
    the first comma gives "Moscow" and "ru", and this is the only way to
    write the value as city, comma, country; the country part is two
    lower-case ASCII letters. *)
Theorem secrets_city_split :
  exists st v, include secrets_h pp_init = Ok st /\
    read_string (defs st) "SECRET_WEATHER_CITY" = Some v /\
    v = "Moscow,ru" /\
    count_char "," v = 1 /\
    split_first "," v = Some ("Moscow", "ru") /\
    (forall city country, v = city +:+ String "," country ->
       city = "Moscow" /\ country = "ru") /\
    String.length "ru" = 2 /\ string_forallb is_lower "ru" = true.
Proof.
  exists secrets_state, "Moscow,ru".
  split; [apply include_secrets_init|].
  split; [vm_compute; reflexivity|].
  split; [reflexivity|]. split; [reflexivity|]. split; [reflexivity|].
  split; [|split; reflexivity].
  intros city country Hv.
  apply (split_unique "," "Moscow,ru" city country eq_refl) in Hv.
  vm_compute in Hv. by injection Hv as <- <-.
Qed.

Lemma secrets_city_split_witness :
  "Moscow" = "Moscow" /\ "ru" = "ru".
Proof.
  destruct secrets_city_split as (st & v & _ & _ & Hv & _ & _ & Huniq & _).
  apply Huniq. rewrite Hv. reflexivity.
Defined.

(** C3: the city macro reads as a string literal of the form city, comma,
    country code: the city part is not empty and the country part is two
    letters naming an ISO 3166-1 alpha-2 code (RU, written in lower case). *)
Theorem secrets_city_format :
  exists st v city country, include secrets_h pp_init = Ok st /\
    read_macro (defs st) "SECRET_WEATHER_CITY" = Some [TString v] /\
    split_first "," v = Some (city, country) /\
    v = city +:+ String "," country /\
    city <> EmptyString /\
    String.length country = 2 /\
    string_forallb is_alpha country = true /\
    upper_string country = "RU" /\
    upper_string country ∈ iso3166_alpha2 /\
    is_country_code country = true.
Proof.
  exists secrets_state, "Moscow,ru", "Moscow", "ru".
  split; [apply include_secrets_init|].
  split; [vm_compute; reflexivity|].
  repeat (split; [first [reflexivity|discriminate]|]).
  split; [|vm_compute; reflexivity].
  apply (bool_decide_unpack _). vm_compute. exact I.
Qed.

(** ** The states a translation unit goes through *)

Lemma trace_secrets_state :
  trace secrets_directives [] secrets_state = replicate 19 secrets_state.
Proof. vm_compute. reflexivity. Qed.

Lemma trace_times_secrets_state n :
  trace_times n secrets_h secrets_state = replicate (n * 19) secrets_state.
Proof.
  induction n as [|n IH]; [done|].
  cbn [trace_times]. change (map parse_line secrets_h) with secrets_directives.
  rewrite trace_secrets_state, include_guarded, IH by (vm_compute; reflexivity).
  by rewrite <- replicate_add.
Qed.

Lemma include_times_init n :
  include_times (S n) secrets_h pp_init = Ok secrets_state.
Proof.
  cbn [include_times]. rewrite include_secrets_init. cbn [bind].
  induction n as [|n IH]; [done|].
  cbn [include_times]. by rewrite include_guarded by (vm_compute; reflexivity).
Qed.

Lemma trace_times_init n :
  trace_times (S n) secrets_h pp_init =
  trace secrets_directives [] pp_init ++ replicate (n * 19) secrets_state.
Proof.
  cbn [trace_times]. rewrite include_secrets_init.
  by rewrite trace_times_secrets_state.
Qed.

Lemma trace_init_last :
  last (trace secrets_directives [] pp_init) = Some secrets_state.
Proof. vm_compute. reflexivity. Qed.

Lemma definition_changes_replicate name st k :
  definition_changes name st (replicate k st) = 0.
Proof.
  induction k as [|k IH]; [done|].
  cbn [replicate definition_changes]. by rewrite decide_True.
Qed.

Lemma definition_changes_app name prev l1 l2 :
  definition_changes name prev (l1 ++ l2) =
  definition_changes name prev l1 +
  definition_changes name (default prev (last l1)) l2.
Proof.
  revert prev. induction l1 as [|st l1 IH]; intros prev; [done|].
  change ((st :: l1) ++ l2) with (st :: (l1 ++ l2)).
  cbn [definition_changes]. rewrite IH, last_cons.
  destruct (last l1);
    destruct (decide (defs st !! name = defs prev !! name));
    unfold default, from_option, id; lia.
Qed.

Lemma last_replicate_pos {A} (x : A) k : last (replicate (S k) x) = Some x.
Proof.
  induction k as [|k IH]; [done|].
  change (replicate (S (S k)) x) with (x :: replicate (S k) x).
  by rewrite last_cons, IH.
Qed.

Lemma last_app_replicate {A} (l : list A) (x : A) k :
  last l = Some x -> last (l ++ replicate k x) = Some x.
Proof.
  intros Hl. rewrite last_app. destruct k as [|k]; [done|].
  by rewrite last_replicate_pos.
Qed.

(** Defined once, for one macro: what is computed on the first inclusion
    is enough for any number of them. *)
Lemma defined_once_for name v :
  defs secrets_state !! name = Some (Macro None [TString v]) ->
  read_macro (defs secrets_state) name = Some [TString v] ->
  definition_changes name pp_init (trace secrets_directives [] pp_init) = 1 ->
  Forall (fun s => defs s !! name = None \/
                   (defs s !! name = Some (Macro None [TString v]) /\
                    read_macro (defs s) name = Some [TString v]))
         (trace secrets_directives [] pp_init) ->
  forall n, exists st,
    include_times (S n) secrets_h pp_init = Ok st /\
    last (trace_times (S n) secrets_h pp_init) = Some st /\
    defs st !! name = Some (Macro None [TString v]) /\
    read_macro (defs st) name = Some [TString v] /\
    definition_changes name pp_init (trace_times (S n) secrets_h pp_init) = 1 /\
    Forall (fun s => defs s !! name = None \/
                     (defs s !! name = Some (Macro None [TString v]) /\
                      read_macro (defs s) name = Some [TString v]))
           (trace_times (S n) secrets_h pp_init).
Proof.
  intros Hdef Hread Hchanges Hall n. exists secrets_state.
  rewrite trace_times_init.
  split; [apply include_times_init|].
  split; [apply last_app_replicate, trace_init_last|].
  split; [exact Hdef|]. split; [exact Hread|]. split.
  - rewrite definition_changes_app, trace_init_last. cbn [default].
    rewrite definition_changes_replicate. lia.
  - apply Forall_app. split; [exact Hall|].
    apply Forall_replicate. right. split; assumption.
Qed.

(** C5: each of the four credential macros is defined exactly once and
    never changed.  The header holds one [#define] and no [#undef] for it;
    and for some string [v], however many times the header is included, the
    inclusions succeed and end in a state where the macro is defined as the
    literal [v]; along all the states gone through its definition changes
    exactly once; and each of those states either comes before its
    definition or has it defined as [v] and read as [v]. *)
Theorem secrets_defined_once :
  Forall (fun name =>
    count_where (defines_name name) secrets_directives = 1 /\
    count_where (undefs_name name) secrets_directives = 0 /\
    exists v, forall n, exists st,
      include_times (S n) secrets_h pp_init = Ok st /\
      last (trace_times (S n) secrets_h pp_init) = Some st /\
      defs st !! name = Some (Macro None [TString v]) /\
      read_macro (defs st) name = Some [TString v] /\
      definition_changes name pp_init (trace_times (S n) secrets_h pp_init) = 1 /\
      Forall (fun s => defs s !! name = None \/
                       (defs s !! name = Some (Macro None [TString v]) /\
                        read_macro (defs s) name = Some [TString v]))
             (trace_times (S n) secrets_h pp_init))
    secret_names.
Proof.
  unfold secret_names. repeat apply Forall_cons_2; [..|apply Forall_nil_2];
    (split; [vm_compute; reflexivity|]); (split; [vm_compute; reflexivity|]).
  - exists "YourWIFI". apply defined_once_for;
      [vm_compute; reflexivity..|apply (bool_decide_unpack _); vm_compute; exact I].
  - exists "YourPassword". apply defined_once_for;
      [vm_compute; reflexivity..|apply (bool_decide_unpack _); vm_compute; exact I].
  - exists "YourAPIKey". apply defined_once_for;
      [vm_compute; reflexivity..|apply (bool_decide_unpack _); vm_compute; exact I].
  - exists "Moscow,ru". apply defined_once_for;
      [vm_compute; reflexivity..|apply (bool_decide_unpack _); vm_compute; exact I].
Qed.

(** ** Expansion over a table of plain macros *)

Section Expansion.
Variable table : gmap string macro.

Lemma expand_cons fuel hide t rest :
  expand (S fuel) table hide (t :: rest) =
  match t with
  | TIdent x =>
      match (if bool_decide (x ∈ hide) then None else table !! x) with
      | Some (Macro None body) =>
          match expand fuel table (x :: hide) body,
                expand (S fuel) table hide rest with
          | Some e, Some r => Some (e ++ r)
          | _, _ => None
          end
      | Some (Macro (Some _) _) =>
          if next_is_lparen rest then None
          else cons (TIdent x) <$> expand (S fuel) table hide rest
      | None => cons (TIdent x) <$> expand (S fuel) table hide rest
      end
  | _ => cons t <$> expand (S fuel) table hide rest
  end.
Proof. by destruct t. Qed.

(** Tokens that name no macro go through unchanged. *)
Lemma expand_ident_free fuel hide ts :
  ident_free ts = true -> expand (S fuel) table hide ts = Some ts.
Proof.
  induction ts as [|t ts IH]; [done|].
  cbn [ident_free forallb]. intros [Ht Hts]%andb_prop.
  rewrite expand_cons, (IH Hts). by destruct t.
Qed.

Hypothesis table_plain : plain table.

Lemma expand_plain fuel ts :
  expand (S (S fuel)) table [] ts = Some (ts ≫= subst table).
Proof.
  induction ts as [|t ts IH]; [done|].
  rewrite expand_cons, IH, bind_cons.
  destruct t as [x| | | | | |]; try done.
  cbn [subst]. rewrite bool_decide_eq_false_2 by apply not_elem_of_nil.
  destruct (table !! x) as [[ps body]|] eqn:Hx; [|done].
  destruct (table_plain x _ Hx) as [Hps Hbody]. cbn in Hps, Hbody.
  subst ps. by rewrite expand_ident_free.
Qed.
End Expansion.

(** Two tables that differ at one name substitute alike in text that does
    not mention it. *)
Lemma subst_agree (m1 m2 : gmap string macro) name ts :
  (forall x, x <> name -> m1 !! x = m2 !! x) ->
  mentions name ts = false ->
  ts ≫= subst m1 = ts ≫= subst m2.
Proof.
  intros Hm. induction ts as [|t ts IH]; [done|].
  cbn [mentions existsb]. intros [Ht Hts]%orb_false_elim.
  rewrite !bind_cons, (IH Hts). f_equal.
  destruct t as [x| | | | | |]; try done.
  cbn [subst]. cbn [is_ident] in Ht. apply String.eqb_neq in Ht.
  by rewrite (Hm x Ht).
Qed.

Lemma secrets_state_plain : plain (defs secrets_state).
Proof. apply (bool_decide_unpack _). vm_compute. exact I. Qed.



(** * Further properties of the header *)

Ltac in_list := apply (bool_decide_unpack _); vm_compute; exact I.

(** ** More on [#define] *)

Lemma define_lookup_ne name m k st st' :
  define name m st = Ok st' -> k <> name -> defs st' !! k = defs st !! k.
Proof.
  unfold define. destruct (defs st !! name) as [old|].
  - destruct (decide (old = m)); [|done]. by intros [= <-].
  - intros [= <-] Hk. cbn. by apply lookup_insert_ne.
Qed.

Lemma define_same name m st :
  defs st !! name = Some m -> define name m st = Ok st.
Proof. unfold define. intros ->. by rewrite decide_True. Qed.

Lemma define_err_inv name m st e :
  define name m st = Err e ->
  e = ERedefined name /\ exists old, defs st !! name = Some old /\ old <> m.
Proof.
  unfold define. destruct (defs st !! name) as [old|]; [|done].
  destruct (decide (old = m)); [done|]. intros [= <-]. eauto.
Qed.

(** ** The first inclusion, in any translation unit *)

(** What a first inclusion leaves alone when it meets no incompatible
    definition: the program text, every macro the unit had, and every name
    the header does not define. *)
Lemma include_unguarded_frame st st' :
  is_defined "SECRETS_H" st = false ->
  include secrets_h st = Ok st' ->
  out st' = out st /\ defs st ⊆ defs st' /\
  forall k, k ∉ "SECRETS_H" :: secret_names -> defs st' !! k = defs st !! k.
Proof.
  intros Hg H. rewrite include_unguarded in H by done.
  destruct (define "SECRETS_H" _ st) as [s1|] eqn:E1; [|done].
  cbn [bind] in H.
  destruct (define "SECRET_WIFI_SSID" _ s1) as [s2|] eqn:E2; [|done].
  cbn [bind] in H.
  destruct (define "SECRET_WIFI_PASSWORD" _ s2) as [s3|] eqn:E3; [|done].
  cbn [bind] in H.
  destruct (define "SECRET_WEATHER_API_KEY" _ s3) as [s4|] eqn:E4; [|done].
  cbn [bind] in H.
  pose proof (define_ok _ _ _ _ E1) as (_ & S1 & O1).
  pose proof (define_ok _ _ _ _ E2) as (_ & S2 & O2).
  pose proof (define_ok _ _ _ _ E3) as (_ & S3 & O3).
  pose proof (define_ok _ _ _ _ E4) as (_ & S4 & O4).
  pose proof (define_ok _ _ _ _ H) as (_ & S5 & O5).
  split; [congruence|]. split.
  - do 4 (etrans; [eassumption|]). exact S5.
  - intros k Hk. unfold secret_names in Hk.
    repeat (apply not_elem_of_cons in Hk as [? Hk]).
    rewrite (define_lookup_ne _ _ k _ _ H), (define_lookup_ne _ _ k _ _ E4),
      (define_lookup_ne _ _ k _ _ E3), (define_lookup_ne _ _ k _ _ E2),
      (define_lookup_ne _ _ k _ _ E1) by done.
    done.
Qed.

(** ** When inclusion fails *)

(** A failed inclusion is a first inclusion that met, in the unit, one of
    the credential macros defined with another body. *)
Lemma include_err_inv st e :
  include secrets_h st = Err e ->
  is_defined "SECRETS_H" st = false /\
  exists name old, name ∈ secret_names /\ e = ERedefined name /\
    defs st !! name = Some old /\ defs secrets_state !! name <> Some old.
Proof.
  intros H. destruct (is_defined "SECRETS_H" st) eqn:Hg.
  { by rewrite include_guarded in H. }
  split; [done|]. rewrite include_unguarded in H by done.
  destruct secrets_state_lookups as (_ & R2 & R3 & R4 & R5).
  destruct (define "SECRETS_H" _ st) as [s1|e1] eqn:E1.
  2:{ apply define_err_inv in E1 as (_ & old & Hold & _).
      apply is_defined_false in Hg. congruence. }
  cbn [bind] in H.
  destruct (define "SECRET_WIFI_SSID" _ s1) as [s2|e2] eqn:E2.
  2:{ injection H as <-. apply define_err_inv in E2 as (-> & old & Hold & Hne).
      rewrite (define_lookup_ne _ _ _ _ _ E1) in Hold by done.
      exists "SECRET_WIFI_SSID", old. rewrite R2.
      split; [in_list|]. split; [done|]. split; [done|]. congruence. }
  cbn [bind] in H.
  destruct (define "SECRET_WIFI_PASSWORD" _ s2) as [s3|e3] eqn:E3.
  2:{ injection H as <-. apply define_err_inv in E3 as (-> & old & Hold & Hne).
      rewrite (define_lookup_ne _ _ _ _ _ E2), (define_lookup_ne _ _ _ _ _ E1)
        in Hold by done.
      exists "SECRET_WIFI_PASSWORD", old. rewrite R3.
      split; [in_list|]. split; [done|]. split; [done|]. congruence. }
  cbn [bind] in H.
  destruct (define "SECRET_WEATHER_API_KEY" _ s3) as [s4|e4] eqn:E4.
  2:{ injection H as <-. apply define_err_inv in E4 as (-> & old & Hold & Hne).
      rewrite (define_lookup_ne _ _ _ _ _ E3), (define_lookup_ne _ _ _ _ _ E2),
        (define_lookup_ne _ _ _ _ _ E1) in Hold by done.
      exists "SECRET_WEATHER_API_KEY", old. rewrite R4.
      split; [in_list|]. split; [done|]. split; [done|]. congruence. }
  cbn [bind] in H.
  apply define_err_inv in H as (-> & old & Hold & Hne).
  rewrite (define_lookup_ne _ _ _ _ _ E4), (define_lookup_ne _ _ _ _ _ E3),
    (define_lookup_ne _ _ _ _ _ E2), (define_lookup_ne _ _ _ _ _ E1)
    in Hold by done.
  exists "SECRET_WEATHER_CITY", old. rewrite R5.
  split; [in_list|]. split; [done|]. split; [done|]. congruence.
Qed.

(** X2: the only error an inclusion of the header can end in is the
    redefinition of one of the four credential macros: never an unbalanced
    or unterminated conditional, never an unsupported line, never a
    redefinition of the guard. *)
Theorem secrets_include_error_kind st e :
  include secrets_h st = Err e ->
  exists name, name ∈ secret_names /\ e = ERedefined name.
Proof.
  intros (_ & name & old & Hin & -> & _)%include_err_inv. eauto.
Qed.

Lemma secrets_include_error_kind_witness :
  exists name, name ∈ secret_names /\
    ERedefined "SECRET_WIFI_SSID" = ERedefined name.
Proof.
  assert (H : include secrets_h conflict_unit = Err (ERedefined "SECRET_WIFI_SSID"))
    by (vm_compute; reflexivity).
  exact (secrets_include_error_kind conflict_unit _ H).
Defined.

(** Under the standard's rule, inclusion is rejected exactly when the
    guard is not defined and the unit already defines one of the four
    credential macros with a body other than the header's. *)
Lemma include_fails_iff st :
  (exists e, include secrets_h st = Err e) <->
  is_defined "SECRETS_H" st = false /\
  exists name old, name ∈ secret_names /\
    defs st !! name = Some old /\ defs secrets_state !! name <> Some old.
Proof.
  split.
  - intros [e (Hg & name & old & Hin & _ & Hold & Hne)%include_err_inv].
    eauto 10.
  - intros (Hg & name & old & Hin & Hold & Hne).
    destruct (include secrets_h st) as [st'|e] eqn:H; [|by eexists].
    exfalso. apply Hne.
    destruct (include_unguarded_frame _ _ Hg H) as (_ & Hsub & _).
    pose proof (include_unguarded_lookups _ _ Hg H) as Hfive.
    rewrite Forall_forall in Hfive.
    rewrite <- (Hfive name) by (by right).
    by eapply lookup_weaken.
Qed.

(** ** Reading the credentials in any translation unit *)

(** A macro whose body is one string literal reads as that literal whatever
    else the table holds: the words inside a literal are not macro names. *)
Lemma read_string_literal (table : gmap string macro) name s :
  table !! name = Some (Macro None [TString s]) ->
  read_string table name = Some s.
Proof.
  intros Hname. unfold read_string, read_macro, expand_tokens.
  destruct (size table) as [|n] eqn:Hsize.
  { apply map_size_empty_inv in Hsize. subst table.
    by rewrite lookup_empty in Hname. }
  rewrite expand_cons, bool_decide_eq_false_2 by apply not_elem_of_nil.
  rewrite Hname, expand_ident_free by done. done.
Qed.

(** X4: the credentials do not depend on the translation unit.  After a
    successful first inclusion, in a unit that may define any macros of its
    own, even ones named like the words inside the literals, the four
    macros read as the header's four strings. *)
Theorem secrets_read_anywhere st st' :
  is_defined "SECRETS_H" st = false ->
  include secrets_h st = Ok st' ->
  read_secrets st' =
  Some (Secrets "YourWIFI" "YourPassword" "YourAPIKey" "Moscow,ru").
Proof.
  intros Hg H.
  pose proof (include_unguarded_lookups _ _ Hg H) as Hfive.
  destruct secrets_state_lookups as (_ & R2 & R3 & R4 & R5).
  apply Forall_cons_1 in Hfive as [_ Hfive]. unfold secret_names in Hfive.
  apply Forall_cons_1 in Hfive as [L2 Hfive].
  apply Forall_cons_1 in Hfive as [L3 Hfive].
  apply Forall_cons_1 in Hfive as [L4 Hfive].
  apply Forall_cons_1 in Hfive as [L5 _].
  rewrite R2 in L2. rewrite R3 in L3. rewrite R4 in L4. rewrite R5 in L5.
  unfold read_secrets.
  rewrite (read_string_literal _ _ _ L2), (read_string_literal _ _ _ L3),
    (read_string_literal _ _ _ L4), (read_string_literal _ _ _ L5).
  reflexivity.
Qed.

Lemma secrets_read_anywhere_witness :
  read_secrets busy_included =
  Some (Secrets "YourWIFI" "YourPassword" "YourAPIKey" "Moscow,ru").
Proof.
  assert (Hg : is_defined "SECRETS_H" busy_unit = false)
    by (vm_compute; reflexivity).
  assert (H : include secrets_h busy_unit = Ok busy_included)
    by (vm_compute; reflexivity).
  exact (secrets_read_anywhere busy_unit busy_included Hg H).
Defined.

(** ** Inclusions with other lines in between *)

Lemma step_keeps_defined name d cs st cs' st' :
  step d cs st = Ok (cs', st') ->
  undefs_name name d = false ->
  is_defined name st = true -> is_defined name st' = true.
Proof.
  intros Hstep Hd Hdef. destruct d as [n|n| | |n ps body|n|ts| |why];
    cbn [step] in Hstep; try (by injection Hstep as <- <-).
  - destruct cs as [|[taken in_else] cs0]; [done|].
    destruct in_else; [done|]. by injection Hstep as <- <-.
  - destruct cs as [|c cs0]; [done|]. by injection Hstep as <- <-.
  - destruct (live cs); [|by injection Hstep as <- <-].
    destruct (define n _ st) as [s1|] eqn:E; [|done].
    cbn [bind] in Hstep. injection Hstep as <- <-.
    by eapply define_defined.
  - injection Hstep as <- <-. destruct (live cs); [|done].
    cbn [undefs_name] in Hd. apply String.eqb_neq in Hd.
    apply is_defined_true in Hdef. apply is_defined_true.
    unfold undef. cbn [defs]. by rewrite lookup_delete_ne.
  - destruct (live cs); [|by injection Hstep as <- <-].
    unfold emit in Hstep. destruct (expand_tokens _ _); [|done].
    cbn [bind] in Hstep. by injection Hstep as <- <-.
  - done.
Qed.

Lemma run_keeps_defined name ds cs st st' :
  run ds cs st = Ok st' ->
  forallb (fun d => negb (undefs_name name d)) ds = true ->
  is_defined name st = true -> is_defined name st' = true.
Proof.
  revert cs st. induction ds as [|d ds IH]; intros cs st Hrun Hds Hdef.
  - cbn [run] in Hrun. destruct cs; [|done]. by injection Hrun as <-.
  - cbn [forallb] in Hds. apply andb_prop in Hds as [Hd Hds].
    apply negb_true_iff in Hd.
    cbn [run] in Hrun. destruct (step d cs st) as [[cs1 s1]|] eqn:E; [|done].
    cbn [bind fst snd] in Hrun.
    eapply IH; [exact Hrun|exact Hds|]. by eapply step_keeps_defined.
Qed.

(** X5: the guard holds across the rest of the translation unit.  After a
    successful inclusion, whatever lines the unit processes next, as long
    as none of them is [#undef SECRETS_H], including the header again
    succeeds and changes nothing. *)
Theorem secrets_reinclude_later st0 st1 ds st2 :
  include secrets_h st0 = Ok st1 ->
  forallb (fun d => negb (undefs_name "SECRETS_H" d)) ds = true ->
  run ds [] st1 = Ok st2 ->
  include secrets_h st2 = Ok st2.
Proof.
  intros Hinc Hds Hrun. apply include_guarded.
  eapply run_keeps_defined; [exact Hrun|exact Hds|].
  by eapply include_defines_guard.
Qed.

(** X6: the header may even be included again after [#undef SECRETS_H]:
    the second inclusion runs the five [#define] lines once more, each one
    an identical redefinition, and gives back the state the first one
    gave. *)
Theorem secrets_reinclude_after_undef st st' :
  is_defined "SECRETS_H" st = false ->
  include secrets_h st = Ok st' ->
  include secrets_h (undef "SECRETS_H" st') = Ok st'.
Proof.
  intros Hg H.
  pose proof (include_unguarded_lookups _ _ Hg H) as Hfive.
  destruct secrets_state_lookups as (R1 & R2 & R3 & R4 & R5).
  apply Forall_cons_1 in Hfive as [L1 Hfive]. unfold secret_names in Hfive.
  apply Forall_cons_1 in Hfive as [L2 Hfive].
  apply Forall_cons_1 in Hfive as [L3 Hfive].
  apply Forall_cons_1 in Hfive as [L4 Hfive].
  apply Forall_cons_1 in Hfive as [L5 _].
  rewrite R1 in L1. rewrite R2 in L2. rewrite R3 in L3. rewrite R4 in L4.
  rewrite R5 in L5.
  assert (Hundef : is_defined "SECRETS_H" (undef "SECRETS_H" st') = false).
  { apply is_defined_false. unfold undef. cbn [defs]. apply lookup_delete_eq. }
  assert (Hback : define "SECRETS_H" (Macro None []) (undef "SECRETS_H" st') = Ok st').
  { unfold define, undef. cbn [defs out]. rewrite lookup_delete_eq.
    rewrite insert_delete_eq, insert_id by done. by destruct st'. }
  rewrite include_unguarded by done. rewrite Hback. cbn [bind].
  rewrite (define_same _ _ _ L2). cbn [bind].
  rewrite (define_same _ _ _ L3). cbn [bind].
  rewrite (define_same _ _ _ L4). cbn [bind].
  exact (define_same _ _ _ L5).
Qed.

Lemma secrets_reinclude_later_witness :
  include secrets_h later_unit = Ok later_unit.
Proof.
  assert (Hinc : include secrets_h pp_init = Ok secrets_state)
    by (vm_compute; reflexivity).
  assert (Hds : forallb (fun d => negb (undefs_name "SECRETS_H" d))
                  (map parse_line later_lines) = true)
    by (vm_compute; reflexivity).
  assert (Hrun : run (map parse_line later_lines) [] secrets_state = Ok later_unit)
    by (vm_compute; reflexivity).
  exact (secrets_reinclude_later pp_init secrets_state _ later_unit Hinc Hds Hrun).
Defined.

Lemma secrets_reinclude_after_undef_witness :
  include secrets_h (undef "SECRETS_H" secrets_state) = Ok secrets_state.
Proof.
  assert (Hg : is_defined "SECRETS_H" pp_init = false)
    by (vm_compute; reflexivity).
  assert (Hinc : include secrets_h pp_init = Ok secrets_state)
    by (vm_compute; reflexivity).
  exact (secrets_reinclude_after_undef pp_init secrets_state Hg Hinc).
Defined.

(** ** The header under a preprocessor that warns on redefinition *)

#[local] Arguments redefines : simpl never.

Lemma redefines_true name m st :
  redefines name m st = true <->
  exists old, defs st !! name = Some old /\ old <> m.
Proof.
  unfold redefines. destruct (defs st !! name) as [old|]; split.
  - intros H%negb_true_iff%bool_decide_eq_false. eauto.
  - intros (? & [= <-] & Hne). by apply negb_true_iff, bool_decide_eq_false.
  - done.
  - by intros (? & ? & _).
Qed.

(** Where the strict run succeeds, the warning run does the same and adds
    no warning. *)
Lemma run_warn_of_run ds cs st st' ws :
  run ds cs st = Ok st' -> run_warn ds cs st ws = Ok (st', ws).
Proof.
  revert cs st. induction ds as [|d ds IH]; intros cs st Hrun.
  - cbn [run] in Hrun. destruct cs; [|done]. by injection Hrun as <-.
  - cbn [run] in Hrun. cbn [run_warn].
    destruct (step d cs st) as [[cs1 s1]|e] eqn:E; [|done].
    cbn [bind fst snd] in Hrun. destruct d; rewrite E; by apply IH.
Qed.

Lemma run_warn_blank ds cs st ws :
  run_warn (DBlank :: ds) cs st ws = run_warn ds cs st ws.
Proof. reflexivity. Qed.

Lemma run_warn_ifndef name ds cs st ws :
  run_warn (DIfndef name :: ds) cs st ws =
  run_warn ds (Cond (negb (is_defined name st)) false :: cs) st ws.
Proof. reflexivity. Qed.

(** A [#define] in a selected group always goes through: the macro ends up
    defined as written, with a warning if that replaced another body. *)
Lemma run_warn_define name params body ds cs st ws :
  live cs = true ->
  run_warn (DDefine name params body :: ds) cs st ws =
  run_warn ds cs (replace_macro name (Macro params body) st)
    (ws ++ if redefines name (Macro params body) st then [name] else []).
Proof.
  intros Hlive. cbn [run_warn step]. rewrite Hlive.
  unfold define, redefines, replace_macro.
  destruct (defs st !! name) as [old|] eqn:Hold.
  - destruct (decide (old = Macro params body)) as [->|Hne].
    + rewrite bool_decide_eq_true_2 by done. cbn [bind negb fst snd].
      rewrite insert_id, app_nil_r by done. by destruct st.
    + by rewrite bool_decide_eq_false_2 by done.
  - cbn [bind fst snd]. by rewrite app_nil_r.
Qed.

Lemma defines_of_secrets :
  defines_of secrets_directives =
  [ ("SECRETS_H", Macro None []);
    ("SECRET_WIFI_SSID", Macro None [TString "YourWIFI"]);
    ("SECRET_WIFI_PASSWORD", Macro None [TString "YourPassword"]);
    ("SECRET_WEATHER_API_KEY", Macro None [TString "YourAPIKey"]);
    ("SECRET_WEATHER_CITY", Macro None [TString "Moscow,ru"]) ].
Proof. vm_compute. reflexivity. Qed.

(** Does the unit define [name] with a body other than [m]?  Defining other
    names first does not change the answer. *)
Lemma redefines_replace_ne name m k v st :
  k <> name -> redefines name m (replace_macro k v st) = redefines name m st.
Proof.
  intros Hk. unfold redefines, replace_macro. cbn [defs].
  by rewrite lookup_insert_ne.
Qed.

(** The first inclusion, step by step: the five [#define] lines in order,
    each with its own warning. *)
Lemma include_warn_unguarded st :
  is_defined "SECRETS_H" st = false ->
  include_warn secrets_h st =
  Ok (PP (<["SECRET_WEATHER_CITY" := Macro None [TString "Moscow,ru"]]>
         (<["SECRET_WEATHER_API_KEY" := Macro None [TString "YourAPIKey"]]>
         (<["SECRET_WIFI_PASSWORD" := Macro None [TString "YourPassword"]]>
         (<["SECRET_WIFI_SSID" := Macro None [TString "YourWIFI"]]>
         (<["SECRETS_H" := Macro None []]> (defs st))))))
         (out st),
      (if redefines "SECRET_WIFI_SSID" (Macro None [TString "YourWIFI"]) st
       then ["SECRET_WIFI_SSID"] else []) ++
      (if redefines "SECRET_WIFI_PASSWORD" (Macro None [TString "YourPassword"]) st
       then ["SECRET_WIFI_PASSWORD"] else []) ++
      (if redefines "SECRET_WEATHER_API_KEY" (Macro None [TString "YourAPIKey"]) st
       then ["SECRET_WEATHER_API_KEY"] else []) ++
      (if redefines "SECRET_WEATHER_CITY" (Macro None [TString "Moscow,ru"]) st
       then ["SECRET_WEATHER_CITY"] else [])).
Proof.
  intros Hg. unfold include_warn.
  change (map parse_line secrets_h) with secrets_directives.
  rewrite secrets_directives_eq, !run_warn_blank.
  assert (Hno : redefines "SECRETS_H" (Macro None []) st = false).
  { unfold redefines. apply is_defined_false in Hg. by rewrite Hg. }
  rewrite run_warn_ifndef, Hg. cbn [negb].
  rewrite run_warn_define, Hno, !run_warn_blank by done.
  rewrite run_warn_define, !run_warn_blank by done.
  rewrite run_warn_define, !run_warn_blank by done.
  rewrite run_warn_define, !run_warn_blank by done.
  rewrite run_warn_define, !run_warn_blank by done.
  rewrite !redefines_replace_ne by done.
  cbn [run_warn step fst snd]. unfold replace_macro. cbn [defs out].
  by rewrite <- !app_assoc.
Qed.

(** X1: the result of a first inclusion by a preprocessor that warns on
    redefinition, in closed form.  In any translation unit where
    [SECRETS_H] is not defined the inclusion succeeds; it leaves the
    header's five definitions laid over the unit's macros, the header's
    winning where the unit had the same name, and the program text as it
    was; and it warns about each of the header's macros that the unit had
    defined with another body. *)
Theorem secrets_include_overrides st :
  is_defined "SECRETS_H" st = false ->
  include_warn secrets_h st =
  Ok (PP (defs secrets_state ∪ defs st) (out st),
      (List.filter (fun p => redefines p.1 p.2 st)
                   (defines_of secrets_directives)).*1).
Proof.
  intros Hg. rewrite include_warn_unguarded by done.
  assert (Hno : redefines "SECRETS_H" (Macro None []) st = false).
  { unfold redefines. apply is_defined_false in Hg. by rewrite Hg. }
  assert (Hs : defs secrets_state =
    <["SECRET_WEATHER_CITY" := Macro None [TString "Moscow,ru"]]>
    (<["SECRET_WEATHER_API_KEY" := Macro None [TString "YourAPIKey"]]>
    (<["SECRET_WIFI_PASSWORD" := Macro None [TString "YourPassword"]]>
    (<["SECRET_WIFI_SSID" := Macro None [TString "YourWIFI"]]>
    (<["SECRETS_H" := Macro None []]> ∅))))) by (vm_compute; reflexivity).
  f_equal. f_equal.
  - f_equal. rewrite Hs, <- !insert_union_l. by rewrite (left_id_L ∅ (∪)).
  - rewrite defines_of_secrets. cbn [List.filter fst snd]. rewrite Hno.
    repeat destruct (redefines _ _ st); reflexivity.
Qed.

Lemma secrets_include_overrides_witness :
  include_warn secrets_h conflict_unit = Ok (secrets_state, ["SECRET_WIFI_SSID"]).
Proof.
  assert (Hg : is_defined "SECRETS_H" conflict_unit = false)
    by (vm_compute; reflexivity).
  exact (secrets_include_overrides conflict_unit Hg).
Defined.

(** The warnings of a first inclusion, against the unit it is made in. *)
Lemma include_warnings_iff st :
  let ws :=
    (if redefines "SECRET_WIFI_SSID" (Macro None [TString "YourWIFI"]) st
     then ["SECRET_WIFI_SSID"] else []) ++
    (if redefines "SECRET_WIFI_PASSWORD" (Macro None [TString "YourPassword"]) st
     then ["SECRET_WIFI_PASSWORD"] else []) ++
    (if redefines "SECRET_WEATHER_API_KEY" (Macro None [TString "YourAPIKey"]) st
     then ["SECRET_WEATHER_API_KEY"] else []) ++
    (if redefines "SECRET_WEATHER_CITY" (Macro None [TString "Moscow,ru"]) st
     then ["SECRET_WEATHER_CITY"] else []) in
  ws <> [] <->
  exists name old, name ∈ secret_names /\
    defs st !! name = Some old /\ defs secrets_state !! name <> Some old.
Proof.
  destruct secrets_state_lookups as (_ & R2 & R3 & R4 & R5).
  cbn zeta. split.
  - destruct (redefines "SECRET_WIFI_SSID" (Macro None [TString "YourWIFI"]) st)
      eqn:C1.
    { intros _. apply redefines_true in C1 as (old & Hold & Hne).
      exists "SECRET_WIFI_SSID", old. rewrite R2.
      split; [in_list|]. split; [done|]. congruence. }
    destruct (redefines "SECRET_WIFI_PASSWORD"
                (Macro None [TString "YourPassword"]) st) eqn:C2.
    { intros _. apply redefines_true in C2 as (old & Hold & Hne).
      exists "SECRET_WIFI_PASSWORD", old. rewrite R3.
      split; [in_list|]. split; [done|]. congruence. }
    destruct (redefines "SECRET_WEATHER_API_KEY"
                (Macro None [TString "YourAPIKey"]) st) eqn:C3.
    { intros _. apply redefines_true in C3 as (old & Hold & Hne).
      exists "SECRET_WEATHER_API_KEY", old. rewrite R4.
      split; [in_list|]. split; [done|]. congruence. }
    destruct (redefines "SECRET_WEATHER_CITY"
                (Macro None [TString "Moscow,ru"]) st) eqn:C4.
    { intros _. apply redefines_true in C4 as (old & Hold & Hne).
      exists "SECRET_WEATHER_CITY", old. rewrite R5.
      split; [in_list|]. split; [done|]. congruence. }
    intros Hws. by destruct Hws.
  - intros (name & old & Hin & Hold & Hne). unfold secret_names in Hin.
    assert (Hclash : forall m, defs secrets_state !! name = Some m ->
                               redefines name m st = true).
    { intros m Hm. apply redefines_true. exists old. split; [done|].
      intros ->. by apply Hne. }
    apply elem_of_cons in Hin as [->|Hin].
    { rewrite (Hclash _ R2). done. }
    apply elem_of_cons in Hin as [->|Hin].
    { rewrite (Hclash _ R3). by destruct (redefines _ _ st). }
    apply elem_of_cons in Hin as [->|Hin].
    { rewrite (Hclash _ R4). by do 2 destruct (redefines _ _ st). }
    apply elem_of_cons in Hin as [->|Hin].
    { rewrite (Hclash _ R5). by do 3 destruct (redefines _ _ st). }
    inversion Hin.
Qed.

(** X3: what a conflicting definition does to the inclusion.  A
    preprocessor that warns on redefinition includes the header in every
    translation unit without error.  It warns exactly when the guard is not
    defined and the unit already defines one of the four credential macros
    with a body other than the header's, the four [#define] lines not being
    guarded one by one; these are exactly the units where the standard's
    rule, which makes such a redefinition an error, rejects the inclusion;
    and without a warning both readings give the same state. *)
Theorem secrets_include_warns_iff st :
  exists st' ws, include_warn secrets_h st = Ok (st', ws) /\
    (ws <> [] <->
       is_defined "SECRETS_H" st = false /\
       exists name old, name ∈ secret_names /\
         defs st !! name = Some old /\ defs secrets_state !! name <> Some old) /\
    (ws <> [] <-> exists e, include secrets_h st = Err e) /\
    (ws = [] -> include secrets_h st = Ok st').
Proof.
  destruct (is_defined "SECRETS_H" st) eqn:Hg.
  - pose proof (include_guarded _ Hg) as Hinc.
    exists st, []. split; [by apply run_warn_of_run|].
    split.
    { split; [intros H; by destruct H|]. intros [Hg' _]. congruence. }
    split; [|intros _; exact Hinc].
    split; [intros H; by destruct H|]. intros [e He]. congruence.
  - pose proof (include_warnings_iff st) as Hws. cbn zeta in Hws.
    eexists _, _. split; [by apply include_warn_unguarded|].
    split; [rewrite Hws; tauto|].
    split; [rewrite include_fails_iff, Hws; tauto|].
    intros Hnil. destruct (include secrets_h st) as [s|e] eqn:Hinc.
    + assert (Hwarn : include_warn secrets_h st = Ok (s, []))
        by exact (run_warn_of_run _ _ _ _ [] Hinc).
      rewrite (include_warn_unguarded _ Hg) in Hwarn.
      injection Hwarn as Hs _. by rewrite Hs.
    + exfalso. assert (He : exists e, include secrets_h st = Err e) by eauto.
      apply include_fails_iff in He as [_ He]. apply Hws in He.
      exact (He Hnil).
Qed.

Lemma secrets_include_warns_iff_witness :
  exists st' ws, include_warn secrets_h conflict_unit = Ok (st', ws) /\
    ws <> [] /\ exists e, include secrets_h conflict_unit = Err e.
Proof.
  destruct (secrets_include_warns_iff conflict_unit)
    as (st' & ws & Hinc & Hws & Herr & _).
  exists st', ws. split; [exact Hinc|].
  assert (Hne : ws <> []).
  { apply Hws. split; [vm_compute; reflexivity|].
    exists "SECRET_WIFI_SSID", (Macro None [TString "home"]).
    split; [in_list|]. split; [vm_compute; reflexivity|].
    vm_compute. discriminate. }
  split; [exact Hne|]. by apply Herr.
Defined.
